(** * FTL concepts: functor and monad dispatch, derivation mixins, operators

    A shallow embedding of [include/ftl/concepts/monad.h] and
    [include/ftl/concepts/functor.h].

    The headers are a compile-time dispatch layer over primitives that
    each concrete monad supplies.  Three aspects of the C++ are kept
    explicit in the embedding:

    - calls may have effects: every call lives in an ambient effect [E]
      (an [Effect] instance).  [Direct] is the effect-free reading, in
      which a call is its result; [Traced] records an ordered log of
      calls, so that "invoked once, in this order" can be stated;
    - overloads on [const M&] and [M&&]: the value category of the
      wrapped operand is an explicit argument ([value_category]) of the
      primitives, so [bind lvalue m f] is [monad<M>::bind(m, f)] and
      [bind rvalue m f] is [monad<M>::bind(std::move(m), f)].  The
      category of callables and of element values is not tracked;
    - template resolution: what the compiler decides for a call is a
      value of [resolved]: the call is selected, removed from the
      overload set (substitution failure), or its body does not
      instantiate (hard error).  The last two are build failures. *)

From Stdlib Require Import List String ZArith Bool FunctionalExtensionality.
Import ListNotations.

Set Default Proof Using "Type".

(** ** Ambient effects *)

Class Effect (E : Type -> Type) : Type := {
  ret : forall {A : Type}, A -> E A;
  bnd : forall {A B : Type}, E A -> (A -> E B) -> E B
}.

Declare Scope effect_scope.
Delimit Scope effect_scope with effect.
Notation "x <- e ;; k" := (bnd e (fun x => k))
  (at level 61, e at next level, right associativity) : effect_scope.
Open Scope effect_scope.

(** Effect-free calls: a call is its result. *)
Definition Direct (A : Type) : Type := A.

#[export] Instance Direct_Effect : Effect Direct := {|
  ret := fun A (a : A) => a;
  bnd := fun A B (a : Direct A) (k : A -> Direct B) => k a
|}.

(** Calls that append events of type [Ev] to a log, oldest first. *)
Definition Traced (Ev : Type) (A : Type) : Type := (A * list Ev)%type.

#[export] Instance Traced_Effect (Ev : Type) : Effect (Traced Ev) := {|
  ret := fun A (a : A) => (a, []);
  bnd := fun A B (e : Traced Ev A) (k : A -> Traced Ev B) =>
           let (a, w) := e in let (b, w') := k a in (b, w ++ w')
|}.

Definition tell {Ev : Type} (ev : Ev) : Traced Ev unit := (tt, [ev]).

(** ** Value categories and overload resolution *)

(** [lvalue]: the operand binds to [const M&]; [rvalue]: it is passed
    with [std::move] or is a temporary and binds to [M&&] where such an
    overload exists. *)
Inductive value_category : Type := lvalue | rvalue.

(** Outcome of resolving one call expression at build time. *)
Inductive resolved (A : Type) : Type :=
| Selected (a : A)   (* the call compiles and denotes [a] *)
| Excluded           (* removed by [enable_if] or a failing [decltype] *)
| Ill_formed.        (* selected, but the body does not instantiate *)
Arguments Selected {A} a.
Arguments Excluded {A}.
Arguments Ill_formed {A}.

Definition is_build_failure {A : Type} (r : resolved A) : bool :=
  match r with Selected _ => false | _ => true end.

(** [typename = typename std::enable_if<b>::type] *)
Definition enable_if {A : Type} (b : bool) (r : resolved A) : resolved A :=
  if b then r else Excluded.

(** Naming a static member of a descriptor: ill-formed when the
    specialisation does not have it. *)
Definition member {A : Type} (o : option A) : resolved A :=
  match o with Some a => Selected a | None => Ill_formed end.

(** An expression under [decltype] in a trailing return type: when it
    is ill-formed the overload is dropped instead. *)
Definition sfinae {A : Type} (r : resolved A) : resolved A :=
  match r with Ill_formed => Excluded | _ => r end.

(** An operator used inside a function body: no viable overload there
    is a hard error. *)
Definition in_body {A : Type} (r : resolved A) : resolved A :=
  match r with Excluded => Ill_formed | _ => r end.

(** Resolution of an expression that needs [r] resolved first: a
    failure of [r] is the failure of the whole. *)
Definition and_then {A B : Type} (r : resolved A) (k : A -> resolved B)
  : resolved B :=
  match r with
  | Selected a => k a
  | Excluded => Excluded
  | Ill_formed => Ill_formed
  end.

Notation "'using' x := r 'in' k" := (and_then r (fun x => k))
  (at level 10, x name, r at level 100, k at level 200).

(** Modelled from the spec: [id] of the missing [prelude.h], the
    identity function ("join(m) = bind(m, identity)"). *)
Definition id {E : Type -> Type} `{Effect E} {A : Type} (a : A) : E A := ret a.

(** Modelled from the spec: [compose] of the missing [function.h],
    [compose(f, g)(x) = f(g(x))]. *)
Definition compose {E : Type -> Type} `{Effect E} {A B C : Type}
  (f : B -> E C) (g : A -> E B) (a : A) : E C :=
  b <- g a ;; f b.

(** ** The monad interface *)

Module monad.

(** What a specialisation [monad<M<T>>] declares.  A member that the
    specialisation does not have is [None]. *)
Record t (E M : Type -> Type) (T : Type) : Type := Build {
  instance : bool;
  pure : option (T -> E (M T));
  map : option (forall U : Type,
          (T -> E U) -> value_category -> M T -> E (M U));
  apply : option (forall U : Type,
          value_category -> M (T -> E U) -> M T -> E (M U));
  bind : option (forall U : Type,
          value_category -> M T -> (T -> E (M U)) -> E (M U));
  join : option (value_category -> M (M T) -> E (M T))
}.
Arguments Build {E M T}.
Arguments instance {E M T}.
Arguments pure {E M T}.
Arguments map {E M T}.
Arguments apply {E M T}.
Arguments bind {E M T}.
Arguments join {E M T}.

(** The unspecialised template: [instance = false] and, outside the
    documentation build, no member at all. *)
Definition primary {E M : Type -> Type} {T : Type} : t E M T :=
  Build false None None None None None.

End monad.

(** [template<typename M> constexpr bool Monad()] *)
Definition Monad {E M : Type -> Type} {T : Type} (d : monad.t E M T) : bool :=
  monad.instance d.

(** ** Derivation mixins

    Each [deriving_*] struct is a section over the members it calls on
    the inheriting family; these are the members that have to be
    implemented natively.  Where the source has a [const&] and an [&&]
    overload both are given, and the function taking a
    [value_category] is the overload set. *)

Module deriving_join.
Section deriving_join.
Context {E : Type -> Type} `{Effect E} {M_ : Type -> Type}.

(** [monad<M_<A>>::bind], for every element type [A]. *)
Variable bind : forall A B : Type,
  value_category -> M_ A -> (A -> E (M_ B)) -> E (M_ B).

(** [static M_<T> join(const M_<M_<T>>& m)] *)
Definition join_cref {T : Type} (m : M_ (M_ T)) : E (M_ T) :=
  bind (M_ T) T lvalue m id.

(** [static M_<T> join(M_<M_<T>>&& m)] *)
Definition join_rv {T : Type} (m : M_ (M_ T)) : E (M_ T) :=
  bind (M_ T) T rvalue m id.

Definition join {T : Type} (c : value_category) (m : M_ (M_ T)) : E (M_ T) :=
  match c with lvalue => join_cref m | rvalue => join_rv m end.
End deriving_join.
End deriving_join.

Module deriving_map.
Section deriving_map.
Context {E : Type -> Type} `{Effect E} {M_ : Type -> Type}.

(** [monad<M>::bind] and [monad<M_<U>>::pure]. *)
Variable bind : forall A B : Type,
  value_category -> M_ A -> (A -> E (M_ B)) -> E (M_ B).
Variable pure : forall A : Type, A -> E (M_ A).

(** [static M_<U> map(F f, const M_<T>& m)] *)
Definition map_cref {T U : Type} (f : T -> E U) (m : M_ T) : E (M_ U) :=
  bind T U lvalue m (fun t => u <- f t ;; pure U u).

(** [static M_<U> map(F f, M_<T>&& m)] *)
Definition map_rv {T U : Type} (f : T -> E U) (m : M_ T) : E (M_ U) :=
  bind T U rvalue m (fun t => u <- f t ;; pure U u).

Definition map {T U : Type} (f : T -> E U) (c : value_category) (m : M_ T)
  : E (M_ U) :=
  match c with lvalue => map_cref f m | rvalue => map_rv f m end.
End deriving_map.
End deriving_map.

Module deriving_bind.
Section deriving_bind.
Context {E : Type -> Type} `{Effect E} {M_ : Type -> Type}.

(** [monad<M_<U>>::join] and [monad<M_<T>>::map]. *)
Variable join : forall A : Type, value_category -> M_ (M_ A) -> E (M_ A).
Variable map : forall A B : Type,
  (A -> E B) -> value_category -> M_ A -> E (M_ B).

(** [static M_<U> bind(const M_<T>& m, F&& f)]; the result of [map]
    is a temporary, so [join] receives an rvalue. *)
Definition bind_cref {T U : Type} (m : M_ T) (f : T -> E (M_ U)) : E (M_ U) :=
  mm <- map T (M_ U) f lvalue m ;; join U rvalue mm.

(** [static M_<U> bind(M_<T>&& m, F&& f)] *)
Definition bind_rv {T U : Type} (m : M_ T) (f : T -> E (M_ U)) : E (M_ U) :=
  mm <- map T (M_ U) f rvalue m ;; join U rvalue mm.

Definition bind {T U : Type} (c : value_category) (m : M_ T)
  (f : T -> E (M_ U)) : E (M_ U) :=
  match c with lvalue => bind_cref m f | rvalue => bind_rv m f end.
End deriving_bind.
End deriving_bind.

Module deriving_apply.
Section deriving_apply.
Context {E : Type -> Type} `{Effect E} {M_ : Type -> Type}.

(** [monad<Mf_>::bind], [monad<M>::bind] and [monad<M_<U>>::pure]. *)
Variable bind : forall A B : Type,
  value_category -> M_ A -> (A -> E (M_ B)) -> E (M_ B).
Variable pure : forall A : Type, A -> E (M_ A).

(** [static M_<U> apply(Mf&& f, M m)]: [f] is forwarded, [m] is taken
    by value and captured by copy, so the inner [bind] sees an
    lvalue. *)
Definition apply {T U : Type} (c : value_category) (f : M_ (T -> E U))
  (m : M_ T) : E (M_ U) :=
  bind (T -> E U) U c f
    (fun fn => bind T U lvalue m (fun t => u <- fn t ;; pure U u)).
End deriving_apply.
End deriving_apply.

(** ** Operators *)

Section operators.
Context {E : Type -> Type} `{Effect E} {M : Type -> Type}.

(** [operator>>= (M&& m, F&& f)], guarded by [Monad<M_>()], with
    [decltype(monad<M_>::bind(...))] as return type. *)
Definition operator_shr_assign {T U : Type} (monad_M : monad.t E M T)
  (c : value_category) (m : M T) (f : T -> E (M U)) : resolved (E (M U)) :=
  enable_if (Monad monad_M)
    (sfinae (using bind := member (monad.bind monad_M) in
             Selected (bind U c m f))).

(** [operator<<= (F&& f, M&& m)]: the same with the arguments
    swapped. *)
Definition operator_shl_assign {T U : Type} (monad_M : monad.t E M T)
  (f : T -> E (M U)) (c : value_category) (m : M T) : resolved (E (M U)) :=
  enable_if (Monad monad_M)
    (sfinae (using bind := member (monad.bind monad_M) in
             Selected (bind U c m f))).

(** [Mu operator>> (Mt&& m1, const Mu& m2)], guarded by
    [Monad<Mt_>()].  The second guard, that [Mu] re-parametrised to
    [T] is [Mt_], is the typing of [m1 : M T] and [m2 : M U]. *)
Definition operator_shr {T U : Type} (monad_Mt : monad.t E M T)
  (c : value_category) (m1 : M T) (m2 : M U) : resolved (E (M U)) :=
  enable_if (Monad monad_Mt)
    (using bind := member (monad.bind monad_Mt) in
     Selected (bind U c m1 (fun _ => ret m2))).

(** [Mt operator<< (const Mt& m1, Mu m2)], guarded by [Monad<Mt>()]
    and, as [>>], by the typing of the operands. *)
Definition operator_shl_cref {T U : Type} (monad_Mt : monad.t E M T)
  (monad_Mu : monad.t E M U) (m1 : M T) (m2 : M U) : resolved (E (M T)) :=
  enable_if (Monad monad_Mt)
    (using bind_t := member (monad.bind monad_Mt) in
     using bind_u := member (monad.bind monad_Mu) in
     using pure := member (monad.pure monad_Mt) in
     Selected (bind_t T lvalue m1 (fun t =>
                 bind_u T lvalue m2 (fun _ => pure t)))).

(** [Mt operator<< (Mt&& m1, Mu m2)]: [m1] is a named reference in
    the body, so [bind] is called on an lvalue here as well. *)
Definition operator_shl_rv {T U : Type} (monad_Mt : monad.t E M T)
  (monad_Mu : monad.t E M U) (m1 : M T) (m2 : M U) : resolved (E (M T)) :=
  enable_if (Monad monad_Mt)
    (using bind_t := member (monad.bind monad_Mt) in
     using bind_u := member (monad.bind monad_Mu) in
     using pure := member (monad.pure monad_Mt) in
     Selected (bind_t T lvalue m1 (fun t =>
                 bind_u T lvalue m2 (fun _ => pure t)))).

(** Overload resolution between the two: an lvalue left operand can
    only bind to [const Mt&]; for an rvalue the [Mt&&] overload is the
    better match. *)
Definition operator_shl {T U : Type} (monad_Mt : monad.t E M T)
  (monad_Mu : monad.t E M U) (c : value_category) (m1 : M T) (m2 : M U)
  : resolved (E (M T)) :=
  match c with
  | lvalue => operator_shl_cref monad_Mt monad_Mu m1 m2
  | rvalue => operator_shl_rv monad_Mt monad_Mu m1 m2
  end.

(** [Mu liftM(F f, const Mt& m)], guarded by [Monad<Mt>()]; the body
    is [m >>= [f](const T& t){ return monad<Mu>::pure(f(t)); }]. *)
Definition liftM {T U : Type} (monad_Mt : monad.t E M T)
  (monad_Mu : monad.t E M U) (f : T -> E U) (m : M T) : resolved (E (M U)) :=
  enable_if (Monad monad_Mt)
    (using pure := member (monad.pure monad_Mu) in
     in_body (operator_shr_assign monad_Mt lvalue m
                (fun t => u <- f t ;; pure u))).

(** [mBind::operator()], of which [mbind] is the instance: no [Monad]
    guard, only the [decltype]. *)
Definition mbind {T U : Type} (monad_M : monad.t E M T)
  (c : value_category) (m : M T) (f : T -> E (M U)) : resolved (E (M U)) :=
  sfinae (using bind := member (monad.bind monad_M) in
          Selected (bind U c m f)).
End operators.

(** ** The functor interface *)

Module applicative.

(** [applicative<F>] is only declared in [functor.h]; this is the part
    of it that the functor interface names: the [instance] flag and
    [map], whose overloads on the wrapped operand are selected by the
    [value_category]. *)
Record t (E F : Type -> Type) (T : Type) : Type := Build {
  instance : bool;
  map : option (forall U : Type,
          (T -> E U) -> value_category -> F T -> E (F U))
}.
Arguments Build {E F T}.
Arguments instance {E F T}.
Arguments map {E F T}.

End applicative.

Module functor.

(** What a well-formed specialisation [functor<F<T>>] declares.  A
    declared [map] has a written return type, so naming it in a call
    always succeeds; its result tells whether the body instantiates
    for that call. *)
Record t (E F : Type -> Type) (T : Type) : Type := Build {
  instance : bool;
  map : option (forall U : Type,
          (T -> E U) -> value_category -> F T -> resolved (E (F U)))
}.
Arguments Build {E F T}.
Arguments instance {E F T}.
Arguments map {E F T}.

(** What a name denotes at the place where a declaration of the
    primary template mentions it. *)
Inductive denotes : Type := a_type | a_template | not_declared.

(** The primary template has the type parameter [F_], and the alias
    template [F] ([template<typename U> using F = ...]) from its
    declaration at line 103 on. *)
Definition F_declared_at : nat := 103.

Definition name_F_ (line : nat) : denotes := a_type.

Definition name_F (line : nat) : denotes :=
  if (F_declared_at <=? line)%nat then a_template else not_declared.

(** An argument for a [typename] parameter has to denote a type. *)
Definition type_argument (n : denotes) : resolved unit :=
  match n with
  | a_type => Selected tt
  | a_template => Ill_formed
  | not_declared => Ill_formed
  end.

Section primary.
Context {E F : Type -> Type} {T : Type}.

(** The descriptor [applicative<F_>] of the same family. *)
Variable a : applicative.t E F T.

(** Line 97: [using T = concept_parameter<F>;] *)
Definition T_alias : resolved unit := type_argument (name_F 97).

(** Lines 110-114: [static F<U> map(Fn&& fn, const F<T>& f)], whose
    body is [applicative<F_>::map(std::forward<Fn>(fn), f)]. *)
Definition map_cref {U : Type} (fn : T -> E U) (f : F T)
  : resolved (E (F U)) :=
  using _ := type_argument (name_F_ 112) in
  using applicative_map := member (applicative.map a) in
  Selected (applicative_map U fn lvalue f).

(** Lines 117-120: [static F<U> map(Fn&& fn, F<T>&& f)], whose body is
    [applicative<F_>::map(std::forward<Fn>(fn), std::move(f))]. *)
Definition map_rv {U : Type} (fn : T -> E U) (f : F T)
  : resolved (E (F U)) :=
  using _ := type_argument (name_F_ 119) in
  using applicative_map := member (applicative.map a) in
  Selected (applicative_map U fn rvalue f).

(** Line 128: [static constexpr bool instance =
    applicative<F>::instance;] *)
Definition instance_flag : resolved bool :=
  using _ := type_argument (name_F 128) in
  Selected (applicative.instance a).

(** The unspecialised template [functor<F_>], as written: it is a
    descriptor only if its declarations are well-formed. *)
Definition primary : resolved (t E F T) :=
  using _ := T_alias in
  using flag := instance_flag in
  Selected (Build flag
              (Some (fun (U : Type) (fn : T -> E U) (c : value_category)
                         (f : F T) =>
                       match c with
                       | lvalue => map_cref fn f
                       | rvalue => map_rv fn f
                       end))).
End primary.

(** Template lookup [functor<F_>]: the family's own specialisation when
    it supplied one, the primary template otherwise. *)
Definition lookup {E F : Type -> Type} {T : Type} (own : option (t E F T))
  (a : applicative.t E F T) : resolved (t E F T) :=
  match own with Some s => Selected s | None => primary a end.

End functor.

(** [template<typename F> constexpr bool Functor()], for the
    descriptor [functor<F>]. *)
Definition Functor {E F : Type -> Type} {T : Type} (d : functor.t E F T) : bool :=
  functor.instance d.

Section calls.
Context {E F : Type -> Type} {T U : Type}.

(** The call expression [functor<F_>::map(fn, f)]. *)
Definition functor_map (d : functor.t E F T) (fn : T -> E U)
  (c : value_category) (f : F T) : resolved (E (F U)) :=
  using map := member (functor.map d) in map U fn c f.

(** The call expression [applicative<F_>::map(fn, f)]. *)
Definition applicative_map (a : applicative.t E F T) (fn : T -> E U)
  (c : value_category) (f : F T) : resolved (E (F U)) :=
  using map := member (applicative.map a) in Selected (map U fn c f).

(** [operator% (Fn&& fn, F&& f)], guarded by [Functor<F_>()], with
    [decltype(functor<F_>::map(...))] as return type: the [decltype]
    needs the declaration of [map] only, the body of the operator
    makes the call. *)
Definition operator_mod (d : functor.t E F T) (fn : T -> E U)
  (c : value_category) (f : F T) : resolved (E (F U)) :=
  enable_if (Functor d)
    (using map := sfinae (member (functor.map d)) in map U fn c f).

(** [fMap::operator()], of which [fmap] is the instance: no [Functor]
    guard, only the [decltype]. *)
Definition fmap (d : functor.t E F T) (fn : T -> E U)
  (c : value_category) (f : F T) : resolved (E (F U)) :=
  using map := sfinae (member (functor.map d)) in map U fn c f.
End calls.

(** ** The optional family *)

(** Modelled from the spec: the optional-value family of the missing
    [maybe.h], with [pure(x) = present(x)] and [nothing] for absence. *)
Inductive maybe (T : Type) : Type :=
| nothing
| present (x : T).
Arguments nothing {T}.
Arguments present {T} x.

Module maybe_monad.
Section maybe_monad.
Context {E : Type -> Type} `{Effect E}.

(** Modelled from the spec: [pure(x) = present(x)]. *)
Definition pure (A : Type) (x : A) : E (maybe A) := ret (present x).

(** Modelled from the spec: [bind] of the optional family (scenarios
    3 and 4): on [nothing] the result is [nothing] and [f] is not
    invoked; on [present(x)] it is [f(x)].  One body serves both
    value categories. *)
Definition bind (A B : Type) (c : value_category) (m : maybe A)
  (f : A -> E (maybe B)) : E (maybe B) :=
  match m with
  | nothing => ret nothing
  | present x => f x
  end.

(** The specialisation: [pure] and [bind] native, the rest inherited
    from the mixins. *)
Definition descriptor (T : Type) : monad.t E maybe T :=
  monad.Build true
    (Some (pure T))
    (Some (fun U => deriving_map.map bind pure (T := T) (U := U)))
    (Some (fun U => deriving_apply.apply bind pure (T := T) (U := U)))
    (Some (bind T))
    (Some (deriving_join.join bind (T := T))).
End maybe_monad.
End maybe_monad.

(** ** Call recording *)

(** [spy note d] is [d] with every call of its [bind] recorded in the
    log, as [note c m] for operand [m] of category [c], before the call
    proceeds. *)
Definition spy {Ev : Type} {M : Type -> Type} {T : Type}
  (note : value_category -> M T -> Ev) (d : monad.t (Traced Ev) M T)
  : monad.t (Traced Ev) M T :=
  monad.Build (monad.instance d) (monad.pure d) (monad.map d) (monad.apply d)
    match monad.bind d with
    | Some bind => Some (fun U c m f => _ <- tell (note c m) ;; bind U c m f)
    | None => None
    end
    (monad.join d).

(** The two calls of [bind] that [m1 << m2] or [m1 >> m2] can make on
    [maybe<int>] and [maybe<string>] operands. *)
Inductive bind_call : Type :=
| bind_left (c : value_category) (m : maybe Z)
| bind_right (c : value_category) (m : maybe string).

(** ** Laws and conformance predicates *)

Section laws.
(** A family whose calls have no effect besides their result. *)
Variable M : Type -> Type.
Variable pure : forall A : Type, A -> Direct (M A).
Variable bind : forall A B : Type,
  value_category -> M A -> (A -> Direct (M B)) -> Direct (M B).
Variable map : forall A B : Type,
  (A -> Direct B) -> value_category -> M A -> Direct (M B).

(** The monad laws of [monad.h], for whichever overload of [bind] a
    call selects. *)
Definition left_identity : Prop :=
  forall (A B : Type) (c : value_category) (x : A) (f : A -> M B),
    bind A B c (pure A x) f = f x.

Definition right_identity : Prop :=
  forall (A : Type) (c : value_category) (m : M A),
    bind A A c m (pure A) = m.

Definition associativity : Prop :=
  forall (A B C : Type) (c c' c'' : value_category) (m : M A)
         (f : A -> M B) (g : B -> M C),
    bind B C c' (bind A B c m f) g
    = bind A C c m (fun x => bind B C c'' (f x) g).

(** The functor laws of [functor.h]. *)
Definition preserves_identity : Prop :=
  forall (T : Type) (c : value_category) (t : M T),
    map T T id c t = t.

Definition preserves_composition : Prop :=
  forall (T U V : Type) (c c' : value_category) (f : U -> V) (g : T -> U)
         (t : M T),
    map T V (compose f g) c t = map U V f c' (map T U g c t).
End laws.

Section conformance.
Context {E : Type -> Type} `{Effect E} {M : Type -> Type} {T : Type}.

Definition supplied {A : Type} (o : option A) : bool :=
  match o with Some _ => true | None => false end.

(** One of the two minimal cores, [{bind, pure}] or
    [{join, map, pure}], is among the members of [d]. *)
Definition minimal_core_supplied (d : monad.t E M T) : bool :=
  supplied (monad.pure d)
  && (supplied (monad.bind d)
      || (supplied (monad.join d) && supplied (monad.map d))).

(** None of [>>=], [<<=], [>>], [<<], [liftM] is in the overload set
    for a left operand described by [d]. *)
Definition statically_excluded (d : monad.t E M T) : Prop :=
  forall (U : Type) (monad_Mu : monad.t E M U) (c : value_category)
         (m : M T) (m2 : M U) (f : T -> E (M U)) (g : T -> E U),
    operator_shr_assign d c m f = Excluded
    /\ operator_shl_assign d f c m = Excluded
    /\ operator_shr d c m m2 = Excluded
    /\ operator_shl d monad_Mu c m m2 = Excluded
    /\ liftM d monad_Mu g m = Excluded.

(** Every use of [>>=], [<<=], [>>], [<<], [liftM] with a left
    operand described by [d] fails the build. *)
Definition fails_to_build (d : monad.t E M T) : Prop :=
  forall (U : Type) (monad_Mu : monad.t E M U) (c : value_category)
         (m : M T) (m2 : M U) (f : T -> E (M U)) (g : T -> E U),
    is_build_failure (operator_shr_assign d c m f) = true
    /\ is_build_failure (operator_shl_assign d f c m) = true
    /\ is_build_failure (operator_shr d c m m2) = true
    /\ is_build_failure (operator_shl d monad_Mu c m m2) = true
    /\ is_build_failure (liftM d monad_Mu g m) = true.
End conformance.

(** A specialisation that declares itself an instance and implements
    nothing. *)
Definition hollow {E M : Type -> Type} {T : Type} : monad.t E M T :=
  monad.Build true None None None None None.

(** * Properties *)

(** ** The derivation mixins compute what they are documented to *)

Section derivations.
Context {E : Type -> Type} `{Effect E} {M : Type -> Type}.

Variable bind : forall A B : Type,
  value_category -> M A -> (A -> E (M B)) -> E (M B).
Variable pure : forall A : Type, A -> E (M A).
Variable join : forall A : Type, value_category -> M (M A) -> E (M A).
Variable map : forall A B : Type,
  (A -> E B) -> value_category -> M A -> E (M B).

(** C1: with native [bind] and [pure], the derived map satisfies
    [map(f, m) = bind(m, x |-> pure(f(x)))], in the [const&] overload,
    in the [&&] overload (where [m] is moved into [bind]), and hence
    for the overload set. *)
Theorem deriving_map_is_bind_pure (T U : Type) (f : T -> E U) (m : M T) :
  deriving_map.map_cref bind pure f m
    = bind T U lvalue m (fun x => y <- f x ;; pure U y)
  /\ deriving_map.map_rv bind pure f m
    = bind T U rvalue m (fun x => y <- f x ;; pure U y)
  /\ forall c : value_category,
      deriving_map.map bind pure f c m
      = bind T U c m (fun x => y <- f x ;; pure U y).
Proof.
  repeat split. intros c; destruct c; reflexivity.
Qed.

(** C2: with native [bind], the derived join of a doubly wrapped [m]
    satisfies [join(m) = bind(m, identity)], in both overloads. *)
Theorem deriving_join_is_bind_id (T : Type) (m : M (M T)) :
  deriving_join.join_cref bind m = bind (M T) T lvalue m id
  /\ deriving_join.join_rv bind m = bind (M T) T rvalue m id
  /\ forall c : value_category,
      deriving_join.join bind c m = bind (M T) T c m id.
Proof.
  repeat split. intros c; destruct c; reflexivity.
Qed.

(** C3: with native [join] and [map], the derived bind satisfies
    [bind(m, f) = join(map(f, m))]: [map] is called first, on [m] in
    the category [bind] received it, and [join] on its result. *)
Theorem deriving_bind_is_join_map (T U : Type) (m : M T)
  (f : T -> E (M U)) :
  deriving_bind.bind_cref join map m f
    = (mm <- map T (M U) f lvalue m ;; join U rvalue mm)
  /\ deriving_bind.bind_rv join map m f
    = (mm <- map T (M U) f rvalue m ;; join U rvalue mm)
  /\ forall c : value_category,
      deriving_bind.bind join map c m f
      = (mm <- map T (M U) f c m ;; join U rvalue mm).
Proof.
  repeat split. intros c; destruct c; reflexivity.
Qed.
End derivations.

(** C4: with native [bind] and [pure], the derived apply satisfies
    [apply(mf, m) = bind(mf, f |-> bind(m, x |-> pure(f(x))))]: for
    effectful calls, where [mf] keeps its category and [m], captured
    by copy, is bound as an lvalue; and literally so for calls without
    effects. *)
Theorem deriving_apply_is_bind_bind_pure :
  (forall (E : Type -> Type) (H : Effect E) (M : Type -> Type)
          (bind : forall A B : Type,
              value_category -> M A -> (A -> E (M B)) -> E (M B))
          (pure : forall A : Type, A -> E (M A))
          (T U : Type) (c : value_category) (mf : M (T -> E U)) (m : M T),
      deriving_apply.apply bind pure c mf m
      = bind (T -> E U) U c mf
          (fun f => bind T U lvalue m (fun x => y <- f x ;; pure U y)))
  /\ (forall (M : Type -> Type)
             (bind : forall A B : Type,
                 value_category -> M A -> (A -> M B) -> M B)
             (pure : forall A : Type, A -> M A)
             (T U : Type) (c : value_category) (mf : M (T -> U)) (m : M T),
      deriving_apply.apply (E := Direct) bind pure c mf m
      = bind (T -> U) U c mf
          (fun f => bind T U lvalue m (fun x => pure U (f x)))).
Proof.
  split.
  - intros E H M bind pure T U c mf m. reflexivity.
  - intros M bind pure T U c mf m. reflexivity.
Qed.


(** ** The optional family behaves as its scenarios say *)

Example maybe_map_present :
  deriving_map.map (E := Direct) maybe_monad.bind maybe_monad.pure
    (fun x : Z => (x + 1)%Z) lvalue (present 5%Z) = present 6%Z.
Proof. reflexivity. Qed.

Example maybe_map_nothing :
  deriving_map.map (E := Direct) maybe_monad.bind maybe_monad.pure
    (fun x : Z => (x + 1)%Z) lvalue nothing = nothing.
Proof. reflexivity. Qed.

Example maybe_bind_present :
  maybe_monad.bind (E := Direct) Z Z lvalue (present 5%Z)
    (fun x => if (0 <? x)%Z then present (x * 2)%Z else nothing)
  = present 10%Z.
Proof. reflexivity. Qed.

Example maybe_bind_nothing :
  maybe_monad.bind (E := Direct) Z Z lvalue nothing
    (fun x => present (x * 2)%Z) = nothing.
Proof. reflexivity. Qed.

Lemma maybe_left_identity :
  left_identity maybe (maybe_monad.pure (E := Direct))
    (maybe_monad.bind (E := Direct)).
Proof. intros A B c x f. reflexivity. Qed.

Lemma maybe_right_identity :
  right_identity maybe (maybe_monad.pure (E := Direct))
    (maybe_monad.bind (E := Direct)).
Proof. intros A c m. destruct m; reflexivity. Qed.

Lemma maybe_associativity :
  associativity maybe (maybe_monad.bind (E := Direct)).
Proof. intros A B C c c' c'' m f g. destruct m; reflexivity. Qed.

(** Derivation agreement on the optional family: [bind] derived from
    the derived [join] and [map] is the native [bind] again. *)
Lemma maybe_derived_bind_agrees (T U : Type) (c : value_category)
  (m : maybe T) (f : T -> maybe U) :
  deriving_bind.bind (E := Direct)
    (fun A => deriving_join.join maybe_monad.bind (T := A))
    (fun A B => deriving_map.map maybe_monad.bind maybe_monad.pure
                  (T := A) (U := B))
    c m f
  = maybe_monad.bind (E := Direct) T U c m f.
Proof. destruct c, m; reflexivity. Qed.

Example maybe_liftM :
  liftM (maybe_monad.descriptor (E := Direct) Z) (maybe_monad.descriptor Z)
    (fun x : Z => (x + 1)%Z) (present 5%Z) = Selected (present 6%Z).
Proof. reflexivity. Qed.

Example maybe_shr_recorded :
  operator_shr (spy bind_left (maybe_monad.descriptor Z)) rvalue
    (present 3%Z) (present "a"%string)
  = Selected (present "a"%string, [bind_left rvalue (present 3%Z)]).
Proof. reflexivity. Qed.

(** ** The derived map of a lawful monad is a lawful functor *)

Section derived_functor_laws.
Variable M : Type -> Type.
Variable pure : forall A : Type, A -> Direct (M A).
Variable bind : forall A B : Type,
  value_category -> M A -> (A -> Direct (M B)) -> Direct (M B).

(** Without effects the derived map is literally
    [bind(m, x |-> pure(f(x)))]. *)
Lemma derived_map_direct (T U : Type) (f : T -> U) (c : value_category)
  (m : M T) :
  deriving_map.map (E := Direct) bind pure f c m
  = bind T U c m (fun x => pure U (f x)).
Proof. destruct c; reflexivity. Qed.

Lemma derived_map_preserves_identity :
  right_identity M pure bind ->
  preserves_identity M (@deriving_map.map Direct _ M bind pure).
Proof.
  intros Hr T c t. rewrite derived_map_direct.
  change (fun x : T => pure T (id x)) with (pure T). apply Hr.
Qed.

Lemma derived_map_preserves_composition :
  left_identity M pure bind -> associativity M bind ->
  preserves_composition M (@deriving_map.map Direct _ M bind pure).
Proof.
  intros Hl Ha T U V c c' f g t. rewrite !derived_map_direct.
  rewrite (Ha T U V c c' rvalue). f_equal.
  apply functional_extensionality; intros x.
  rewrite Hl. reflexivity.
Qed.

(** C5: if native [pure] and [bind] satisfy left identity, right
    identity and associativity, the map derived from them satisfies
    the functor laws: [map(id, t) = t] and
    [map(compose(f, g), t) = map(f, map(g, t))] for all [t] and all
    pure [f], [g]. *)
Theorem derived_map_functor_laws :
  left_identity M pure bind ->
  right_identity M pure bind ->
  associativity M bind ->
  (forall (T : Type) (c : value_category) (t : M T),
      deriving_map.map (E := Direct) bind pure id c t = t)
  /\ (forall (T U V : Type) (c c' : value_category) (f : U -> V)
             (g : T -> U) (t : M T),
      deriving_map.map (E := Direct) bind pure (compose f g) c t
      = deriving_map.map (E := Direct) bind pure f c'
          (deriving_map.map (E := Direct) bind pure g c t)).
Proof.
  intros Hl Hr Ha. split.
  - exact (derived_map_preserves_identity Hr).
  - exact (derived_map_preserves_composition Hl Ha).
Qed.
End derived_functor_laws.

(** The laws instantiated at the optional family. *)
Lemma derived_map_functor_laws_maybe :
  deriving_map.map (E := Direct) maybe_monad.bind maybe_monad.pure
    id lvalue (present 5%Z) = present 5%Z
  /\ deriving_map.map (E := Direct) maybe_monad.bind maybe_monad.pure
       (compose (fun x : Z => (x * 2)%Z) (fun x : Z => (x + 1)%Z))
       lvalue (present 5%Z)
     = deriving_map.map (E := Direct) maybe_monad.bind maybe_monad.pure
         (fun x : Z => (x * 2)%Z) rvalue
         (deriving_map.map (E := Direct) maybe_monad.bind maybe_monad.pure
            (fun x : Z => (x + 1)%Z) lvalue (present 5%Z)).
Proof.
  destruct (derived_map_functor_laws maybe
              (maybe_monad.pure (E := Direct)) (maybe_monad.bind (E := Direct))
              maybe_left_identity maybe_right_identity maybe_associativity)
    as [Hid Hcomp].
  split.
  - apply Hid.
  - apply (Hcomp Z Z Z lvalue rvalue).
Defined.

(** ** Sequencing operators *)

(** Unfolds the guards of an operator and rewrites with what is known
    about the descriptors' members. *)
Ltac resolve_call :=
  unfold liftM, operator_shl, operator_shl_cref, operator_shl_rv,
    operator_shr, operator_shr_assign, operator_shl_assign, functor_map,
    applicative_map, Monad, Functor in *;
  repeat match goal with
         | [ H : ?x = _ |- context [?x] ] => rewrite H
         end;
  cbn [enable_if member sfinae in_body and_then is_build_failure].

Section sequencing.
Context {E : Type -> Type} `{Effect E} {M : Type -> Type} {T U : Type}.
Variable monad_Mt : monad.t E M T.
Variable monad_Mu : monad.t E M U.

Lemma operator_shr_selected bind c (m1 : M T) (m2 : M U) :
  Monad monad_Mt = true ->
  monad.bind monad_Mt = Some bind ->
  operator_shr monad_Mt c m1 m2
  = Selected (bind U c m1 (fun _ => ret m2)).
Proof. intros Hi Hb. resolve_call. reflexivity. Qed.

Lemma operator_shl_selected bind_t bind_u pure c (m1 : M T) (m2 : M U) :
  Monad monad_Mt = true ->
  monad.bind monad_Mt = Some bind_t ->
  monad.bind monad_Mu = Some bind_u ->
  monad.pure monad_Mt = Some pure ->
  operator_shl monad_Mt monad_Mu c m1 m2
  = Selected (bind_t T lvalue m1 (fun t =>
                bind_u T lvalue m2 (fun _ => pure t))).
Proof. intros Hi Ht Hu Hp. destruct c; resolve_call; reflexivity. Qed.

Lemma operator_shl_overloads_agree (m1 : M T) (m2 : M U) :
  operator_shl_rv monad_Mt monad_Mu m1 m2
  = operator_shl_cref monad_Mt monad_Mu m1 m2.
Proof. reflexivity. Qed.
End sequencing.

(** What [m1 << m2] does on optional operands when every call of
    [bind] is recorded: [m1]'s [bind] is called first, on an lvalue;
    [m2]'s [bind] is called after it, and only if [m1] holds a value. *)
Lemma operator_shl_maybe_recorded (c : value_category) (m1 : maybe Z)
  (m2 : maybe string) :
  operator_shl (spy bind_left (maybe_monad.descriptor Z))
               (spy bind_right (maybe_monad.descriptor string)) c m1 m2
  = Selected
      match m1, m2 with
      | nothing, _ => (nothing, [bind_left lvalue m1])
      | present _, nothing =>
          (nothing, [bind_left lvalue m1; bind_right lvalue m2])
      | present x, present _ =>
          (present x, [bind_left lvalue m1; bind_right lvalue m2])
      end.
Proof. destruct c, m1, m2; reflexivity. Qed.

(** C6: for a monad instance, [m1 >> m2] is
    [bind(m1, _ |-> m2)], the continuation ignoring the value of [m1];
    on the optional family [present(3) >> present("a")] is
    [present("a")]. *)
Theorem operator_shr_discards_left :
  (forall (E : Type -> Type) (H : Effect E) (M : Type -> Type) (T U : Type)
          (monad_Mt : monad.t E M T) bind (c : value_category)
          (m1 : M T) (m2 : M U),
      Monad monad_Mt = true ->
      monad.bind monad_Mt = Some bind ->
      operator_shr monad_Mt c m1 m2
      = Selected (bind U c m1 (fun _ : T => ret m2)))
  /\ (forall c : value_category,
      operator_shr (maybe_monad.descriptor (E := Direct) Z) c
        (present 3%Z) (present "a"%string)
      = Selected (present "a"%string)).
Proof.
  split.
  - intros. apply operator_shr_selected; assumption.
  - intros c. reflexivity.
Qed.

Lemma operator_shr_discards_left_maybe :
  operator_shr (maybe_monad.descriptor (E := Direct) Z) rvalue
    (present 3%Z) (nothing (T := string))
  = Selected (maybe_monad.bind (E := Direct) Z string rvalue (present 3%Z)
                (fun _ => nothing)).
Proof.
  apply (proj1 operator_shr_discards_left Direct Direct_Effect);
    reflexivity.
Defined.

(** C7: for a monad instance, [m1 << m2] is
    [bind(m1, t |-> bind(m2, _ |-> pure(t)))]: [m1] is sequenced first,
    then [m2], and the value of [m1] is wrapped again.  On the optional
    family [present(3) << present("a")] is [present(3)], and with calls
    recorded the log is: [bind] on [present(3)], then [bind] on
    [present("a")], once each. *)
Theorem operator_shl_keeps_left :
  (forall (E : Type -> Type) (H : Effect E) (M : Type -> Type) (T U : Type)
          (monad_Mt : monad.t E M T) (monad_Mu : monad.t E M U)
          bind_t bind_u pure (c : value_category) (m1 : M T) (m2 : M U),
      Monad monad_Mt = true ->
      monad.bind monad_Mt = Some bind_t ->
      monad.bind monad_Mu = Some bind_u ->
      monad.pure monad_Mt = Some pure ->
      operator_shl monad_Mt monad_Mu c m1 m2
      = Selected (bind_t T lvalue m1 (fun t =>
                    bind_u T lvalue m2 (fun _ : U => pure t))))
  /\ (forall c : value_category,
      operator_shl (maybe_monad.descriptor (E := Direct) Z)
        (maybe_monad.descriptor (E := Direct) string) c
        (present 3%Z) (present "a"%string)
      = Selected (present 3%Z))
  /\ (forall c : value_category,
      operator_shl (spy bind_left (maybe_monad.descriptor Z))
        (spy bind_right (maybe_monad.descriptor string)) c
        (present 3%Z) (present "a"%string)
      = Selected (present 3%Z,
                  [bind_left lvalue (present 3%Z);
                   bind_right lvalue (present "a"%string)])).
Proof.
  repeat split.
  - intros. apply operator_shl_selected; assumption.
  - intros c; destruct c; reflexivity.
  - intros c. apply operator_shl_maybe_recorded.
Qed.

Lemma operator_shl_keeps_left_maybe :
  operator_shl (maybe_monad.descriptor (E := Direct) Z)
    (maybe_monad.descriptor (E := Direct) string) rvalue
    (present 3%Z) (nothing (T := string))
  = Selected
      (maybe_monad.bind (E := Direct) Z Z lvalue (present 3%Z) (fun t =>
         maybe_monad.bind (E := Direct) string Z lvalue nothing (fun _ =>
           maybe_monad.pure (E := Direct) Z t))).
Proof.
  apply (proj1 operator_shl_keeps_left Direct Direct_Effect);
    reflexivity.
Defined.

(** C10: the [Mt&&] overload of [<<] gives exactly what the
    [const Mt&] overload gives, for all descriptors and operands; for a
    monad instance both call [bind] on [m1] as an lvalue, never as an
    rvalue, and on the optional family with calls recorded the logged
    call on [m1] is an lvalue call. *)
Theorem operator_shl_rvalue_same_as_cref :
  forall (E : Type -> Type) (H : Effect E) (M : Type -> Type) (T U : Type)
         (monad_Mt : monad.t E M T) (monad_Mu : monad.t E M U)
         (m1 : M T) (m2 : M U),
    operator_shl_rv monad_Mt monad_Mu m1 m2
    = operator_shl_cref monad_Mt monad_Mu m1 m2
    /\ operator_shl monad_Mt monad_Mu rvalue m1 m2
       = operator_shl monad_Mt monad_Mu lvalue m1 m2
    /\ forall bind_t bind_u pure,
        Monad monad_Mt = true ->
        monad.bind monad_Mt = Some bind_t ->
        monad.bind monad_Mu = Some bind_u ->
        monad.pure monad_Mt = Some pure ->
        operator_shl_rv monad_Mt monad_Mu m1 m2
        = Selected (bind_t T lvalue m1 (fun t =>
                      bind_u T lvalue m2 (fun _ : U => pure t))).
Proof.
  intros. repeat split.
  intros bind_t bind_u pure Hi Ht Hu Hp.
  exact (operator_shl_selected monad_Mt monad_Mu bind_t bind_u pure rvalue
           m1 m2 Hi Ht Hu Hp).
Qed.

Lemma operator_shl_rvalue_same_as_cref_maybe :
  operator_shl_rv (spy bind_left (maybe_monad.descriptor Z))
    (spy bind_right (maybe_monad.descriptor string))
    (present 3%Z) (present "a"%string)
  = Selected (present 3%Z,
              [bind_left lvalue (present 3%Z);
               bind_right lvalue (present "a"%string)]).
Proof.
  refine (eq_trans
    (proj2 (proj2 (operator_shl_rvalue_same_as_cref _ _ _ _ _
       (spy bind_left (maybe_monad.descriptor Z))
       (spy bind_right (maybe_monad.descriptor string))
       (present 3%Z) (present "a"%string))) _ _ _ _ _ _ _) _);
    reflexivity.
Defined.

(** ** The default functor *)

(** C8 does not hold of the header as written.  For a family without
    a functor specialisation of its own the primary template is used,
    and it is ill-formed: line 97 names [F] before the alias template
    [F] is declared, and line 128 passes that alias template to
    [applicative<>], which takes a type.  So [functor<F>::map(fn, f)]
    and [Functor<F>()] do not compile, whatever the applicative
    descriptor is.  The two bodies of [map], read on their own, do
    forward to [applicative<F_>::map] with [f] as an lvalue and as an
    rvalue. *)
Theorem functor_primary_is_ill_formed :
  forall (E F : Type -> Type) (T U : Type) (a : applicative.t E F T)
         (fn : T -> E U) (c : value_category) (f : F T),
    functor.lookup None a = Ill_formed
    /\ (using d := functor.lookup None a in functor_map d fn c f)
       = Ill_formed
    /\ (using d := functor.lookup None a in Selected (Functor d))
       = Ill_formed
    /\ functor.map_cref a fn f = applicative_map a fn lvalue f
    /\ functor.map_rv a fn f = applicative_map a fn rvalue f.
Proof.
  intros E F T U a fn c f. repeat split.
Qed.

(** The failing input: the optional family with an applicative
    descriptor that is an instance and has a [map]. *)
Example functor_primary_on_maybe :
  applicative_map
    (applicative.Build (E := Direct) true
       (Some (fun V => deriving_map.map maybe_monad.bind maybe_monad.pure
                         (T := Z) (U := V))))
    (fun x : Z => (x + 1)%Z) lvalue (present 5%Z)
  = Selected (present 6%Z)
  /\ (using d := functor.lookup None
                   (applicative.Build (E := Direct) true
                      (Some (fun V => deriving_map.map maybe_monad.bind
                                        maybe_monad.pure
                                        (T := Z) (U := V)))) in
      functor_map d (fun x : Z => (x + 1)%Z) lvalue (present 5%Z))
     = Ill_formed.
Proof. split; reflexivity. Qed.

(** ** Non-instances *)

Section non_instances.
Context {E : Type -> Type} `{Effect E} {M : Type -> Type} {T : Type}.

Lemma primary_not_instance :
  Monad (monad.primary (E := E) (M := M) (T := T)) = false.
Proof. reflexivity. Qed.

Lemma guard_excludes (d : monad.t E M T) :
  Monad d = false -> statically_excluded d.
Proof.
  intros Hd U monad_Mu c m m2 f g.
  destruct c; resolve_call; repeat split; reflexivity.
Qed.

Lemma missing_bind_fails (d : monad.t E M T) :
  monad.bind d = None -> fails_to_build d.
Proof.
  intros Hb U monad_Mu c m m2 f g.
  destruct c; resolve_call;
    destruct (monad.instance d); cbn [enable_if];
    destruct (monad.pure monad_Mu); cbn;
    repeat split; reflexivity.
Qed.
End non_instances.

(** C9, as stated, fails: [instance] is what the specialisation
    declares.  [hollow] supplies neither minimal core, yet [Monad]
    answers true for it. *)
Lemma flag_not_computed_from_members :
  ~ (forall d : monad.t Direct maybe Z,
        d = monad.primary \/ minimal_core_supplied d = false ->
        Monad d = false /\ statically_excluded d).
Proof.
  intros Hclaim.
  destruct (Hclaim hollow (or_intror eq_refl)) as [Hflag _].
  discriminate Hflag.
Qed.

(** C9, amended: the unspecialised descriptor has [instance = false];
    whenever [Monad<M>()] is false, [>>=], [<<=], [>>], [<<] and
    [liftM] are all excluded for [M]; and whatever the flag says, a
    descriptor without [bind] makes every use of them a build failure,
    so none of them ever runs something else instead. *)
Theorem non_instance_is_excluded :
  forall (E : Type -> Type) (H : Effect E) (M : Type -> Type) (T : Type)
         (d : monad.t E M T),
    (d = monad.primary -> Monad d = false /\ statically_excluded d)
    /\ (Monad d = false -> statically_excluded d)
    /\ (monad.bind d = None -> fails_to_build d).
Proof.
  intros E H M T d. split; [| split].
  - intros ->. split.
    + apply primary_not_instance.
    + apply guard_excludes, primary_not_instance.
  - apply guard_excludes.
  - apply missing_bind_fails.
Qed.

Lemma non_instance_is_excluded_primary :
  Monad (monad.primary (E := Direct) (M := maybe) (T := Z)) = false
  /\ statically_excluded (monad.primary (E := Direct) (M := maybe) (T := Z))
  /\ fails_to_build (monad.primary (E := Direct) (M := maybe) (T := Z)).
Proof.
  pose proof (non_instance_is_excluded Direct Direct_Effect maybe Z
                monad.primary) as [Hp [_ Hb]].
  destruct (Hp eq_refl) as [Hflag Hex].
  exact (conj Hflag (conj Hex (Hb eq_refl))).
Defined.

(** * Further properties *)

(** ** How the derivations compose on a lawful monad *)

Section derivations_compose.
Variable M : Type -> Type.
Variable pure : forall A : Type, A -> Direct (M A).
Variable bind : forall A B : Type,
  value_category -> M A -> (A -> Direct (M B)) -> Direct (M B).

Hypothesis Hleft : left_identity M pure bind.
Hypothesis Hright : right_identity M pure bind.
Hypothesis Hassoc : associativity M bind.

Lemma derived_join_direct (T : Type) (c : value_category) (m : M (M T)) :
  deriving_join.join (E := Direct) bind c m = bind (M T) T c m (fun x => x).
Proof. destruct c; reflexivity. Qed.

Lemma derived_bind_direct (T U : Type) (c : value_category) (m : M T)
  (f : T -> M U) :
  deriving_bind.bind (E := Direct)
    (fun A => deriving_join.join bind (T := A))
    (fun A B => deriving_map.map bind pure (T := A) (U := B)) c m f
  = bind (M U) U rvalue (bind T (M U) c m (fun x => pure (M U) (f x)))
      (fun x => x).
Proof. destruct c; reflexivity. Qed.

Lemma bind_ext (A B : Type) (c : value_category) (m : M A)
  (f g : A -> M B) :
  (forall x, f x = g x) -> bind A B c m f = bind A B c m g.
Proof.
  intros Hfg. f_equal. apply functional_extensionality, Hfg.
Qed.

(** X1: round trip through the mixins.  [bind] derived by
    [deriving_bind] from the [join] of [deriving_join] and the [map] of
    [deriving_map] is the native [bind] they were derived from, in
    every overload. *)
Theorem derived_bind_round_trip (T U : Type) (c : value_category)
  (m : M T) (f : T -> M U) :
  deriving_bind.bind (E := Direct)
    (fun A => deriving_join.join bind (T := A))
    (fun A B => deriving_map.map bind pure (T := A) (U := B)) c m f
  = bind T U c m f.
Proof using Hleft Hassoc.
  rewrite derived_bind_direct.
  rewrite (Hassoc T (M U) U c rvalue rvalue).
  apply bind_ext. intros x. apply Hleft.
Qed.

(** X2: the derived [join] undoes [pure] on either side:
    [join(pure(m)) = m] and [join(map(pure, m)) = m], with [map] the
    derived one. *)
Theorem derived_join_undoes_pure (T : Type) (c c' : value_category)
  (m : M T) :
  deriving_join.join (E := Direct) bind c (pure (M T) m) = m
  /\ deriving_join.join (E := Direct) bind c'
       (deriving_map.map (E := Direct) bind pure (pure T) c m) = m.
Proof using Hleft Hright Hassoc.
  split.
  - rewrite derived_join_direct. apply Hleft.
  - rewrite derived_join_direct, derived_map_direct.
    rewrite (Hassoc T (M T) T c c' rvalue).
    rewrite <- (Hright T c m) at 2.
    apply bind_ext. intros x. apply Hleft.
Qed.

(** X3: flattening three levels gives the same result inside-out and
    outside-in: [join(join(m)) = join(map(join, m))]. *)
Theorem derived_join_associative (T : Type) (c c' c'' : value_category)
  (m : M (M (M T))) :
  deriving_join.join (E := Direct) bind c'
    (deriving_join.join (E := Direct) bind c m)
  = deriving_join.join (E := Direct) bind c'
      (deriving_map.map (E := Direct) bind pure
         (deriving_join.join (E := Direct) bind c'') c m).
Proof using Hleft Hassoc.
  rewrite !derived_join_direct, derived_map_direct.
  rewrite (Hassoc (M (M T)) (M T) T c c' c'').
  rewrite (Hassoc (M (M T)) (M T) T c c' rvalue).
  apply bind_ext. intros x. rewrite Hleft.
  rewrite derived_join_direct. reflexivity.
Qed.

(** X4: the derived [apply] on a wrapped plain function is the derived
    [map], on [m] as an lvalue whatever the category of the wrapper:
    [apply(pure(f), m) = map(f, m)]; so [apply(pure(id), m) = m] and
    [apply(pure(f), pure(x)) = pure(f(x))]. *)
Theorem derived_apply_of_pure (T U : Type) (c : value_category)
  (f : T -> U) (m : M T) (x : T) :
  deriving_apply.apply (E := Direct) bind pure c (pure (T -> U) f) m
  = deriving_map.map_cref (E := Direct) bind pure f m
  /\ deriving_apply.apply (E := Direct) bind pure c
       (pure (T -> T) (fun t => t)) m = m
  /\ deriving_apply.apply (E := Direct) bind pure c (pure (T -> U) f)
       (pure T x) = pure U (f x).
Proof using Hleft Hright.
  unfold deriving_apply.apply, deriving_map.map_cref. cbn [bnd Direct_Effect].
  repeat split.
  - apply Hleft.
  - rewrite Hleft. apply Hright.
  - rewrite !Hleft. reflexivity.
Qed.
End derivations_compose.

Lemma derived_bind_round_trip_maybe :
  deriving_bind.bind (E := Direct)
    (fun A => deriving_join.join maybe_monad.bind (T := A))
    (fun A B => deriving_map.map maybe_monad.bind maybe_monad.pure
                  (T := A) (U := B))
    rvalue (present 5%Z)
    (fun x => if (0 <? x)%Z then present (x * 2)%Z else nothing)
  = present 10%Z.
Proof.
  exact (derived_bind_round_trip maybe
           (maybe_monad.pure (E := Direct)) (maybe_monad.bind (E := Direct))
           maybe_left_identity maybe_associativity Z Z rvalue (present 5%Z)
           (fun x => if (0 <? x)%Z then present (x * 2)%Z else nothing)).
Defined.

Lemma derived_join_undoes_pure_maybe :
  deriving_join.join (E := Direct) maybe_monad.bind lvalue
    (present (present 5%Z)) = present 5%Z
  /\ deriving_join.join (E := Direct) maybe_monad.bind rvalue
       (deriving_map.map (E := Direct) maybe_monad.bind maybe_monad.pure
          (maybe_monad.pure (E := Direct) Z) lvalue (present 5%Z))
     = present 5%Z.
Proof.
  exact (derived_join_undoes_pure maybe
           (maybe_monad.pure (E := Direct)) (maybe_monad.bind (E := Direct))
           maybe_left_identity maybe_right_identity maybe_associativity
           Z lvalue rvalue (present 5%Z)).
Defined.

Lemma derived_join_associative_maybe :
  deriving_join.join (E := Direct) maybe_monad.bind rvalue
    (deriving_join.join (E := Direct) maybe_monad.bind lvalue
       (present (present (present 5%Z))))
  = deriving_join.join (E := Direct) maybe_monad.bind rvalue
      (deriving_map.map (E := Direct) maybe_monad.bind maybe_monad.pure
         (deriving_join.join (E := Direct) maybe_monad.bind rvalue) lvalue
         (present (present (present 5%Z)))).
Proof.
  exact (derived_join_associative maybe
           (maybe_monad.pure (E := Direct)) (maybe_monad.bind (E := Direct))
           maybe_left_identity maybe_associativity
           Z lvalue rvalue rvalue (present (present (present 5%Z)))).
Defined.

Lemma derived_apply_of_pure_maybe :
  deriving_apply.apply (E := Direct) maybe_monad.bind maybe_monad.pure rvalue
    (present (fun x : Z => (x + 1)%Z)) (present 5%Z)
  = deriving_map.map_cref (E := Direct) maybe_monad.bind maybe_monad.pure
      (fun x : Z => (x + 1)%Z) (present 5%Z)
  /\ deriving_apply.apply (E := Direct) maybe_monad.bind maybe_monad.pure
       rvalue (present (fun t : Z => t)) (present 5%Z) = present 5%Z
  /\ deriving_apply.apply (E := Direct) maybe_monad.bind maybe_monad.pure
       rvalue (present (fun x : Z => (x + 1)%Z)) (present 7%Z)
     = present 8%Z.
Proof.
  exact (derived_apply_of_pure maybe
           (maybe_monad.pure (E := Direct)) (maybe_monad.bind (E := Direct))
           maybe_left_identity maybe_right_identity
           Z Z rvalue (fun x : Z => (x + 1)%Z) (present 5%Z) 7%Z).
Defined.

(** ** The bind operators and [mbind] *)

Section bind_operators.
Context {E : Type -> Type} `{Effect E} {M : Type -> Type} {T U : Type}.
Variable monad_M : monad.t E M T.

(** X5: [f <<= m] resolves exactly as [m >>= f] for every descriptor;
    on an instance [mbind(m, f)] resolves the same way, and all three
    are [monad<M>::bind(m, f)] with the category of [m] forwarded. *)
Theorem bind_operators_agree (c : value_category) (m : M T)
  (f : T -> E (M U)) :
  operator_shl_assign monad_M f c m = operator_shr_assign monad_M c m f
  /\ (Monad monad_M = true ->
      mbind monad_M c m f = operator_shr_assign monad_M c m f)
  /\ (forall bind,
        Monad monad_M = true ->
        monad.bind monad_M = Some bind ->
        operator_shr_assign monad_M c m f = Selected (bind U c m f)).
Proof.
  split; [reflexivity | split].
  - intros Hi. unfold mbind. resolve_call. reflexivity.
  - intros bind Hi Hb. resolve_call. reflexivity.
Qed.

(** X6: [mbind] is not guarded by [Monad]: whenever the descriptor has
    a [bind] it is selected, also where the flag is false and [>>=]
    and [<<=] are excluded. *)
Theorem mbind_ignores_instance bind (c : value_category) (m : M T)
  (f : T -> E (M U)) :
  monad.bind monad_M = Some bind ->
  mbind monad_M c m f = Selected (bind U c m f)
  /\ (Monad monad_M = false ->
      operator_shr_assign monad_M c m f = Excluded
      /\ operator_shl_assign monad_M f c m = Excluded).
Proof.
  intros Hb. split.
  - unfold mbind. resolve_call. reflexivity.
  - intros Hi. resolve_call. split; reflexivity.
Qed.

(** X8: [>>], [<<] and [liftM] test the flag only.  For a descriptor
    that declares [instance = true] and has no [bind] they are
    selected and their bodies do not instantiate: a hard error, where
    [>>=] on the same operand is quietly excluded. *)
Theorem flag_without_bind_is_hard_error (monad_Mu : monad.t E M U)
  (c : value_category) (m : M T) (m2 : M U) (f : T -> E (M U))
  (g : T -> E U) :
  Monad monad_M = true ->
  monad.bind monad_M = None ->
  operator_shr monad_M c m m2 = Ill_formed
  /\ operator_shl monad_M monad_Mu c m m2 = Ill_formed
  /\ liftM monad_M monad_Mu g m = Ill_formed
  /\ operator_shr_assign monad_M c m f = Excluded.
Proof.
  intros Hi Hb.
  destruct c; resolve_call; destruct (monad.pure monad_Mu); cbn;
    repeat split; reflexivity.
Qed.
End bind_operators.

Lemma mbind_ignores_instance_unflagged :
  mbind (E := Direct)
    (monad.Build false None None None (Some (maybe_monad.bind Z)) None)
    lvalue (present 5%Z) (fun x => present (x * 2)%Z)
  = Selected (present 10%Z)
  /\ operator_shr_assign (E := Direct)
       (monad.Build false None None None (Some (maybe_monad.bind Z)) None)
       lvalue (present 5%Z) (fun x => present (x * 2)%Z)
     = Excluded.
Proof.
  destruct (mbind_ignores_instance (E := Direct)
              (monad.Build false None None None
                 (Some (maybe_monad.bind Z)) None)
              (maybe_monad.bind Z) lvalue (present 5%Z)
              (fun x => present (x * 2)%Z) eq_refl) as [Hsel Hex].
  split.
  - exact Hsel.
  - exact (proj1 (Hex eq_refl)).
Defined.

Lemma flag_without_bind_is_hard_error_hollow :
  operator_shr (E := Direct) (M := maybe) (T := Z) hollow rvalue
    (present 3%Z) (present "a"%string) = Ill_formed
  /\ operator_shr_assign (E := Direct) (M := maybe) (T := Z) hollow rvalue
       (present 3%Z) (fun _ => present "a"%string) = Excluded.
Proof.
  destruct (flag_without_bind_is_hard_error (E := Direct) hollow
              (maybe_monad.descriptor string) rvalue (present 3%Z)
              (present "a"%string) (fun _ => present "a"%string)
              (fun _ => "a"%string) eq_refl eq_refl)
    as [Hshr [_ [_ Hbind]]].
  exact (conj Hshr Hbind).
Defined.

Lemma bind_operators_agree_maybe :
  mbind (maybe_monad.descriptor (E := Direct) Z) rvalue (present 5%Z)
    (fun x => present (x * 2)%Z)
  = operator_shr_assign (maybe_monad.descriptor (E := Direct) Z) rvalue
      (present 5%Z) (fun x => present (x * 2)%Z).
Proof.
  exact (proj1 (proj2 (bind_operators_agree (E := Direct)
           (maybe_monad.descriptor Z) rvalue (present 5%Z)
           (fun x => present (x * 2)%Z))) eq_refl).
Defined.

(** ** [liftM] *)

Lemma liftM_selected {E : Type -> Type} `{Effect E} {M : Type -> Type}
  (bind : forall A B : Type,
      value_category -> M A -> (A -> E (M B)) -> E (M B))
  (pure : forall A : Type, A -> E (M A))
  {T U : Type} (monad_Mt : monad.t E M T) (monad_Mu : monad.t E M U)
  (f : T -> E U) (m : M T) :
  Monad monad_Mt = true ->
  monad.bind monad_Mt = Some (bind T) ->
  monad.pure monad_Mu = Some (pure U) ->
  liftM monad_Mt monad_Mu f m
  = Selected (bind T U lvalue m (fun t => u <- f t ;; pure U u)).
Proof. intros Hi Hb Hp. resolve_call. reflexivity. Qed.

(** X9: on an instance, [liftM(f, m)] is the [const&] overload of the
    derived map, [deriving_map::map(f, m)]: it binds [m] as an lvalue
    and wraps each [f(t)] with the [pure] of the result type. *)
Theorem liftM_is_derived_map :
  forall (E : Type -> Type) (H : Effect E) (M : Type -> Type)
         (bind : forall A B : Type,
             value_category -> M A -> (A -> E (M B)) -> E (M B))
         (pure : forall A : Type, A -> E (M A))
         (T U : Type) (monad_Mt : monad.t E M T) (monad_Mu : monad.t E M U)
         (f : T -> E U) (m : M T),
    Monad monad_Mt = true ->
    monad.bind monad_Mt = Some (bind T) ->
    monad.pure monad_Mu = Some (pure U) ->
    liftM monad_Mt monad_Mu f m
    = Selected (deriving_map.map_cref bind pure f m).
Proof.
  intros E H M bind pure T U monad_Mt monad_Mu f m Hi Hb Hp.
  rewrite (liftM_selected bind pure) by assumption. reflexivity.
Qed.

Lemma liftM_is_derived_map_maybe :
  liftM (maybe_monad.descriptor (E := Direct) Z) (maybe_monad.descriptor Z)
    (fun x : Z => (x + 1)%Z) (present 5%Z)
  = Selected (deriving_map.map_cref (E := Direct) maybe_monad.bind
                maybe_monad.pure (fun x : Z => (x + 1)%Z) (present 5%Z)).
Proof.
  exact (liftM_is_derived_map Direct Direct_Effect maybe
           maybe_monad.bind maybe_monad.pure Z Z
           (maybe_monad.descriptor Z) (maybe_monad.descriptor Z)
           (fun x : Z => (x + 1)%Z) (present 5%Z) eq_refl eq_refl eq_refl).
Defined.

Section liftM_laws.
Variable M : Type -> Type.
Variable pure : forall A : Type, A -> Direct (M A).
Variable bind : forall A B : Type,
  value_category -> M A -> (A -> Direct (M B)) -> Direct (M B).
Variables T U V : Type.
Variable monad_Mt : monad.t Direct M T.
Variable monad_Mu : monad.t Direct M U.
Variable monad_Mv : monad.t Direct M V.

(** X10: for a lawful monad [liftM] is a lawful functor map:
    [liftM(id, m)] is [m], and [liftM(compose(f, g), m)] is
    [liftM(f, liftM(g, m))]. *)
Theorem liftM_functor_laws (f : U -> V) (g : T -> U) (m : M T) :
  left_identity M pure bind ->
  right_identity M pure bind ->
  associativity M bind ->
  Monad monad_Mt = true -> Monad monad_Mu = true ->
  monad.bind monad_Mt = Some (bind T) ->
  monad.bind monad_Mu = Some (bind U) ->
  monad.pure monad_Mt = Some (pure T) ->
  monad.pure monad_Mu = Some (pure U) ->
  monad.pure monad_Mv = Some (pure V) ->
  liftM monad_Mt monad_Mt id m = Selected m
  /\ liftM monad_Mt monad_Mv (compose f g) m
     = (using mu := liftM monad_Mt monad_Mu g m in
        liftM monad_Mu monad_Mv f mu).
Proof.
  intros Hl Hr Ha Hit Hiu Hbt Hbu Hpt Hpu Hpv.
  rewrite !(liftM_selected (E := Direct) bind pure) by assumption.
  cbn [and_then].
  rewrite (liftM_selected (E := Direct) bind pure) by assumption.
  split; f_equal.
  - exact (derived_map_preserves_identity M pure bind Hr T lvalue m).
  - exact (derived_map_preserves_composition M pure bind Hl Ha
             T U V lvalue lvalue f g m).
Qed.
End liftM_laws.

Lemma liftM_functor_laws_maybe :
  liftM (maybe_monad.descriptor (E := Direct) Z) (maybe_monad.descriptor Z)
    id (present 5%Z) = Selected (present 5%Z)
  /\ liftM (maybe_monad.descriptor (E := Direct) Z)
       (maybe_monad.descriptor Z)
       (compose (fun x : Z => (x * 2)%Z) (fun x : Z => (x + 1)%Z))
       (present 5%Z)
     = (using mu := liftM (maybe_monad.descriptor (E := Direct) Z)
                      (maybe_monad.descriptor Z)
                      (fun x : Z => (x + 1)%Z) (present 5%Z) in
        liftM (maybe_monad.descriptor (E := Direct) Z)
          (maybe_monad.descriptor Z) (fun x : Z => (x * 2)%Z) mu).
Proof.
  exact (liftM_functor_laws maybe
           (maybe_monad.pure (E := Direct)) (maybe_monad.bind (E := Direct))
           Z Z Z (maybe_monad.descriptor Z) (maybe_monad.descriptor Z)
           (maybe_monad.descriptor Z)
           (fun x : Z => (x * 2)%Z) (fun x : Z => (x + 1)%Z) (present 5%Z)
           maybe_left_identity maybe_right_identity maybe_associativity
           eq_refl eq_refl eq_refl eq_refl eq_refl eq_refl eq_refl).
Defined.

(** ** Laws of the sequencing operators *)

Section sequencing_laws.
Variable M : Type -> Type.
Variable pure : forall A : Type, A -> Direct (M A).
Variable bind : forall A B : Type,
  value_category -> M A -> (A -> Direct (M B)) -> Direct (M B).
Variables T U V : Type.
Variable monad_Mt : monad.t Direct M T.
Variable monad_Mu : monad.t Direct M U.

(** X11: for a lawful monad, [pure(x) >> m2] is [m2], and [>>] is
    associative: [(m1 >> m2) >> m3] is [m1 >> (m2 >> m3)]. *)
Theorem operator_shr_laws (c c' c'' : value_category) (x : T) (m1 : M T)
  (m2 : M U) (m3 : M V) :
  left_identity M pure bind ->
  associativity M bind ->
  Monad monad_Mt = true -> Monad monad_Mu = true ->
  monad.bind monad_Mt = Some (bind T) ->
  monad.bind monad_Mu = Some (bind U) ->
  operator_shr monad_Mt c (pure T x) m2 = Selected m2
  /\ (using m12 := operator_shr monad_Mt c m1 m2 in
      operator_shr monad_Mu c' m12 m3)
     = (using m23 := operator_shr monad_Mu c'' m2 m3 in
        operator_shr monad_Mt c m1 m23).
Proof.
  intros Hl Ha Hit Hiu Hbt Hbu.
  rewrite !(operator_shr_selected monad_Mt (bind T)) by assumption.
  rewrite (operator_shr_selected monad_Mu (bind U)) by assumption.
  cbn [and_then].
  rewrite !(operator_shr_selected monad_Mu (bind U)) by assumption.
  rewrite (operator_shr_selected monad_Mt (bind T)) by assumption.
  cbn [ret Direct_Effect]. split; f_equal.
  - apply Hl.
  - apply (Ha T U V c c' c'').
Qed.

(** X12: for a lawful monad, sequencing a [pure] on the right and
    keeping the left changes nothing: [m << pure(y)] is [m]. *)
Theorem operator_shl_pure_right (c : value_category) (m : M T) (y : U) :
  left_identity M pure bind ->
  right_identity M pure bind ->
  Monad monad_Mt = true ->
  monad.bind monad_Mt = Some (bind T) ->
  monad.bind monad_Mu = Some (bind U) ->
  monad.pure monad_Mt = Some (pure T) ->
  operator_shl monad_Mt monad_Mu c m (pure U y) = Selected m.
Proof.
  intros Hl Hr Hit Hbt Hbu Hpt.
  rewrite (operator_shl_selected monad_Mt monad_Mu (bind T) (bind U) (pure T))
    by assumption.
  f_equal. rewrite <- (Hr T lvalue m) at 2.
  f_equal. apply functional_extensionality; intros t. apply Hl.
Qed.
End sequencing_laws.

Lemma operator_shr_laws_maybe :
  operator_shr (maybe_monad.descriptor (E := Direct) Z) rvalue
    (present 3%Z) (present "a"%string) = Selected (present "a"%string)
  /\ (using m12 := operator_shr (maybe_monad.descriptor (E := Direct) Z)
                     rvalue (present 1%Z) (present "a"%string) in
      operator_shr (maybe_monad.descriptor (E := Direct) string) rvalue
        m12 (present true))
     = (using m23 := operator_shr
                       (maybe_monad.descriptor (E := Direct) string) lvalue
                       (present "a"%string) (present true) in
        operator_shr (maybe_monad.descriptor (E := Direct) Z) rvalue
          (present 1%Z) m23).
Proof.
  exact (operator_shr_laws maybe
           (maybe_monad.pure (E := Direct)) (maybe_monad.bind (E := Direct))
           Z string bool (maybe_monad.descriptor Z)
           (maybe_monad.descriptor string) rvalue rvalue lvalue
           3%Z (present 1%Z) (present "a"%string) (present true)
           maybe_left_identity maybe_associativity
           eq_refl eq_refl eq_refl eq_refl).
Defined.

Lemma operator_shl_pure_right_maybe :
  operator_shl (maybe_monad.descriptor (E := Direct) Z)
    (maybe_monad.descriptor (E := Direct) string) rvalue
    (present 3%Z) (present "a"%string)
  = Selected (present 3%Z).
Proof.
  exact (operator_shl_pure_right maybe
           (maybe_monad.pure (E := Direct)) (maybe_monad.bind (E := Direct))
           Z string (maybe_monad.descriptor Z)
           (maybe_monad.descriptor string) rvalue (present 3%Z) "a"%string
           maybe_left_identity maybe_right_identity
           eq_refl eq_refl eq_refl eq_refl).
Defined.

(** ** Order of calls *)

Section call_order.
Context {Ev : Type} {M : Type -> Type} {T U : Type}.
Variable note : value_category -> M T -> Ev.
Variable monad_Mt : monad.t (Traced Ev) M T.
Variable monad_Mu : monad.t (Traced Ev) M U.

Lemma told_first {A : Type} (ev : Ev) (k : Traced Ev A) :
  exists w, snd (_ <- tell ev ;; k) = ev :: w.
Proof.
  cbn. destruct k as [a w]. exists w. reflexivity.
Qed.

Lemma spy_bind bind_t :
  monad.bind monad_Mt = Some bind_t ->
  monad.bind (spy note monad_Mt)
  = Some (fun V c m f => _ <- tell (note c m) ;; bind_t V c m f).
Proof. intros Hb. unfold spy. cbn [monad.bind]. rewrite Hb. reflexivity. Qed.

(** X13: with the calls of [monad<Mt>::bind] recorded, whatever the
    family and whatever else it logs, [m1 >> m2] and [m1 << m2] on an
    instance are selected and the first entry of their log is the call
    of [bind] on [m1]: with the category [m1] was passed in for [>>],
    as an lvalue for [<<]. *)
Theorem left_operand_is_bound_first bind_t (c : value_category)
  (m1 : M T) (m2 : M U) :
  Monad monad_Mt = true ->
  monad.bind monad_Mt = Some bind_t ->
  (exists r w,
      operator_shr (spy note monad_Mt) c m1 m2 = Selected r
      /\ snd r = note c m1 :: w)
  /\ (forall bind_u pure_t,
        monad.bind monad_Mu = Some bind_u ->
        monad.pure monad_Mt = Some pure_t ->
        exists r w,
          operator_shl (spy note monad_Mt) monad_Mu c m1 m2 = Selected r
          /\ snd r = note lvalue m1 :: w).
Proof.
  intros Hi Hb. split.
  - rewrite (operator_shr_selected (spy note monad_Mt) _ c m1 m2 Hi
               (spy_bind bind_t Hb)).
    destruct (told_first (note c m1)
                (bind_t U c m1 (fun _ => ret m2))) as [w Hw].
    eexists; exists w. split; [reflexivity | exact Hw].
  - intros bind_u pure_t Hu Hp.
    rewrite (operator_shl_selected (spy note monad_Mt) monad_Mu _ bind_u
               pure_t c m1 m2 Hi (spy_bind bind_t Hb) Hu Hp).
    destruct (told_first (note lvalue m1)
                (bind_t T lvalue m1 (fun t =>
                   bind_u T lvalue m2 (fun _ => pure_t t)))) as [w Hw].
    eexists; exists w. split; [reflexivity | exact Hw].
Qed.
End call_order.

Lemma left_operand_is_bound_first_maybe :
  exists r w,
    operator_shr (spy bind_left (maybe_monad.descriptor Z)) rvalue
      (present 3%Z) (present "a"%string) = Selected r
    /\ snd r = bind_left rvalue (present 3%Z) :: w.
Proof.
  exact (proj1 (left_operand_is_bound_first bind_left
                  (maybe_monad.descriptor Z)
                  (maybe_monad.descriptor string) (maybe_monad.bind Z)
                  rvalue (present 3%Z) (present "a"%string)
                  eq_refl eq_refl)).
Defined.

(** ** [operator%] and [fmap] *)

Section functor_operators.
Context {E F : Type -> Type} {T U : Type}.
Variable d : functor.t E F T.

(** X14: on a functor specialisation that is an instance and declares
    [map], [fn % f] and [fmap(fn, f)] are both the call
    [functor<F>::map(fn, f)] with the category of [f] forwarded; in
    particular, when the body of that [map] does not instantiate for
    the call, both are a hard error and not an exclusion.  When no
    [map] is declared both are excluded. *)
Theorem operator_mod_is_functor_map (fn : T -> E U) (c : value_category)
  (f : F T) :
  (forall map,
      Functor d = true ->
      functor.map d = Some map ->
      operator_mod d fn c f = map U fn c f
      /\ fmap d fn c f = map U fn c f
      /\ functor_map d fn c f = map U fn c f)
  /\ (functor.map d = None ->
      operator_mod d fn c f = Excluded /\ fmap d fn c f = Excluded).
Proof.
  unfold operator_mod, fmap, functor_map, Functor. split.
  - intros map Hi Hm. rewrite Hi, Hm. repeat split.
  - intros Hm. rewrite Hm.
    destruct (functor.instance d); split; reflexivity.
Qed.

(** X15: [fmap] is not guarded by [Functor]: on a specialisation that
    declares [map], [fmap(fn, f)] is the call of that [map] also where
    the flag is false and [fn % f] is excluded. *)
Theorem fmap_ignores_instance map (fn : T -> E U) (c : value_category)
  (f : F T) :
  functor.map d = Some map ->
  fmap d fn c f = map U fn c f
  /\ (Functor d = false -> operator_mod d fn c f = Excluded).
Proof.
  intros Hm. unfold fmap, operator_mod, Functor. rewrite Hm. split.
  - reflexivity.
  - intros Hi. rewrite Hi. reflexivity.
Qed.
End functor_operators.

Lemma operator_mod_is_functor_map_maybe :
  operator_mod
    (functor.Build (E := Direct) true
       (Some (fun V fn c f =>
                Selected (deriving_map.map maybe_monad.bind maybe_monad.pure
                            (T := Z) (U := V) fn c f))))
    (fun x : Z => (x + 1)%Z) rvalue (present 5%Z)
  = Selected (present 6%Z).
Proof.
  exact (proj1 (proj1 (operator_mod_is_functor_map
           (functor.Build (E := Direct) true
              (Some (fun V fn c f =>
                       Selected (deriving_map.map maybe_monad.bind
                                   maybe_monad.pure
                                   (T := Z) (U := V) fn c f))))
           (fun x : Z => (x + 1)%Z) rvalue (present 5%Z))
           _ eq_refl eq_refl)).
Defined.

Lemma fmap_ignores_instance_unflagged :
  fmap
    (functor.Build (E := Direct) false
       (Some (fun V fn c f =>
                Selected (deriving_map.map maybe_monad.bind maybe_monad.pure
                            (T := Z) (U := V) fn c f))))
    (fun x : Z => (x + 1)%Z) lvalue (present 5%Z)
  = Selected (present 6%Z)
  /\ operator_mod
       (functor.Build (E := Direct) false
          (Some (fun V fn c f =>
                   Selected (deriving_map.map maybe_monad.bind
                               maybe_monad.pure
                               (T := Z) (U := V) fn c f))))
       (fun x : Z => (x + 1)%Z) lvalue (present 5%Z)
     = Excluded.
Proof.
  destruct (fmap_ignores_instance
              (functor.Build (E := Direct) false
                 (Some (fun V fn c f =>
                          Selected (deriving_map.map maybe_monad.bind
                                      maybe_monad.pure
                                      (T := Z) (U := V) fn c f))))
              _ (fun x : Z => (x + 1)%Z) lvalue (present 5%Z) eq_refl)
    as [Hsel Hex].
  exact (conj Hsel (Hex eq_refl)).
Defined.
